(** * skyndiminni: an in-memory key/value cache with expiring entries

    A shallow embedding of [skyndiminni.go].  The cache is a Go map from
    string keys to [*Item], guarded by a [sync.RWMutex]; a goroutine started
    by [NewCache] sweeps the map periodically and [Close] waits for it on a
    [sync.WaitGroup].

    Modelling choices.
    - [int64] values (expiration instants, clock readings, durations) are
      integers of [Z]; the code only compares them, it never does arithmetic
      on them, so no wrap-around is involved.
    - [map[string]*Item] is a [gmap string (Item V)].  Only [Set] stores into
      the map and it always stores a fresh non-nil pointer, so the [nil]
      returned by an index expression on the map is exactly [None].
    - [interface{}] is a type parameter [V].
    - [time.Now().Unix()] is an argument of the operation that reads it.
    - An [*Item] is an [Item] by value: no method writes through an item
      pointer once the item is in the map.
    - Each method runs in a small state monad over the [cache] record that
      also logs every access to [items] together with the lock mode the
      calling goroutine holds at that point. *)

From Stdlib Require Import ZArith.
From stdpp Require Import gmap strings list fin_maps relations.

#[local] Open Scope Z_scope.

(** ** Data model *)

(** [type Item struct { Value interface{}; Expiration int64; creationTime int64 }] *)
Record Item (V : Type) : Type := mkItem {
  Value : V;
  Expiration : Z;
  creationTime : Z
}.
Arguments mkItem {V} _ _ _.
Arguments Value {V} _.
Arguments Expiration {V} _.
Arguments creationTime {V} _.

(** What the executing goroutine holds of [mut sync.RWMutex]. *)
Inductive lockmode : Type := Unlocked | RLocked | WLocked.

(** [type cache struct]; [wg] is the counter of the [*sync.WaitGroup]. *)
Record cache (V : Type) : Type := mkCache {
  defaultExpr : Z;
  checkExpiredInterval : Z;
  items : gmap string (Item V);
  mut : lockmode;
  wg : nat
}.
Arguments mkCache {V} _ _ _ _ _.
Arguments defaultExpr {V} _.
Arguments checkExpiredInterval {V} _.
Arguments items {V} _.
Arguments mut {V} _.
Arguments wg {V} _.

(** [type Cache struct { *cache }]: the exported handle embeds the pointer,
    so it is the same object. *)
Definition Cache (V : Type) : Type := cache V.

(** [time.Duration] counts nanoseconds. *)
Definition Minute : Z := 60 * 1000000000.
Definition NoExpiration : Z := -1.
Definition DefaultExpiration : Z := 5 * Minute.
Definition CheckExpired : Z := 10 * Minute.

(** Values of [errors.New]. *)
Definition error : Type := string.
Definition errKeyDoesNotExist : error := "key does not exist"%string.
Definition errKeyAlreadyExists : error := "key already exists"%string.

(** ** Accesses to the map and the monad of the methods *)

Inductive access : Type := ReadItems | WriteItems.

(** An access to [items] and the lock held when it is made. *)
Definition event : Type := access * lockmode.

Definition M (V A : Type) : Type := cache V -> A * cache V * list event.

Definition value_of {V A} (x : A * cache V * list event) : A := x.1.1.
Definition cache_of {V A} (x : A * cache V * list event) : cache V := x.1.2.
Definition log_of {V A} (x : A * cache V * list event) : list event := x.2.

Section Methods.
Context {V : Type}.

Definition ret {A} (a : A) : M V A := fun c => (a, c, []).

Definition bind {A B} (m : M V A) (f : A -> M V B) : M V B :=
  fun c =>
    let '(a, c1, l1) := m c in
    let '(b, c2, l2) := f a c1 in
    (b, c2, l1 ++ l2).

Notation "x <- m ;; k" := (bind m (fun x => k))
  (at level 100, m at next level, right associativity).
Notation "m ;; k" := (bind m (fun _ => k))
  (at level 100, right associativity).

Definition with_mut (l : lockmode) (c : cache V) : cache V :=
  mkCache (defaultExpr c) (checkExpiredInterval c) (items c) l (wg c).

Definition with_items (m : gmap string (Item V)) (c : cache V) : cache V :=
  mkCache (defaultExpr c) (checkExpiredInterval c) m (mut c) (wg c).

Definition with_wg (n : nat) (c : cache V) : cache V :=
  mkCache (defaultExpr c) (checkExpiredInterval c) (items c) (mut c) n.

(** The same cache built with another [defaultExpiration]; no method assigns
    the field, the definition serves to compare two caches. *)
Definition with_defaultExpr (d : Z) (c : cache V) : cache V :=
  mkCache d (checkExpiredInterval c) (items c) (mut c) (wg c).

(** [c.mut.RLock()], [c.mut.RUnlock()], [c.mut.Lock()], [c.mut.Unlock()] *)
Definition RLock : M V unit := fun c => (tt, with_mut RLocked c, []).
Definition RUnlock : M V unit := fun c => (tt, with_mut Unlocked c, []).
Definition Lock : M V unit := fun c => (tt, with_mut WLocked c, []).
Definition Unlock : M V unit := fun c => (tt, with_mut Unlocked c, []).

(** [c.items[key]] *)
Definition items_index (key : string) : M V (option (Item V)) :=
  fun c => (items c !! key, c, [(ReadItems, mut c)]).

(** [c.items[key] = item] *)
Definition items_assign (key : string) (item : Item V) : M V unit :=
  fun c => (tt, with_items (<[key := item]> (items c)) c, [(WriteItems, mut c)]).

(** [delete(c.items, key)] *)
Definition items_delete (key : string) : M V unit :=
  fun c => (tt, with_items (delete key (items c)) c, [(WriteItems, mut c)]).

(** [range c.items]: the entries the loop is going to visit.  The loop body
    deletes at most the entry it is visiting, so every entry present when the
    loop starts is produced exactly once, in an order Go leaves unspecified. *)
Definition items_range : M V (list (string * Item V)) :=
  fun c => (map_to_list (items c), c, [(ReadItems, mut c)]).

Fixpoint for_each {A} (l : list A) (body : A -> M V unit) : M V unit :=
  match l with
  | [] => ret tt
  | x :: l' => body x ;; for_each l' body
  end.

(** ** The methods *)

(** [func NewCache(defaultExpiration time.Duration)], returning the handle
    and a nil error.  The counter of [wg] is 1 after [c.wg.Add(1)]; the goroutine it starts is
    [sweeper_step] below. *)
Definition NewCache (defaultExpiration : Z) : Cache V * option error :=
  (mkCache defaultExpiration CheckExpired ∅ Unlocked 1%nat, None).

(** [func (c *Cache) Get(key string)], returning an item pointer and an
    error; [now] is the value of [time.Now().Unix()] on line 75. *)
Definition Get (now : Z) (key : string) : M V (option (Item V) * option error) :=
  RLock ;;
  item <- items_index key ;;
  match item with
  | None =>
      RUnlock ;;
      ret (None, Some errKeyDoesNotExist)
  | Some it =>
      if Expiration it >=? now then
        items_delete key ;;
        RUnlock ;;
        ret (None, Some errKeyDoesNotExist)
      else
        RUnlock ;;
        ret (Some it, None)
  end.

(** [func (c *Cache) Set(key string, value interface{}, expirationTime int64)],
    returning an item pointer and an error; [now] is the value of
    [time.Now().Unix()] on line 96.  ([Set] is a reserved word of Rocq.) *)
Definition Set_ (now : Z) (key : string) (value : V) (expirationTime : Z)
  : M V (option (Item V) * option error) :=
  Lock ;;
  item <- items_index key ;;
  match item with
  | Some it =>
      Unlock ;;
      ret (Some it, Some errKeyAlreadyExists)
  | None =>
      let item := mkItem value expirationTime now in
      items_assign key item ;;
      Unlock ;;
      ret (Some item, None)
  end.

(** [func (c *Cache) Update(key string, value interface{}, expirationTime
    int64, setIfNotExist bool)], returning an item pointer and an error: the
    body is [return nil, nil]. *)
Definition Update (key : string) (value : V) (expirationTime : Z)
    (setIfNotExist : bool) : M V (option (Item V) * option error) :=
  ret (None, None).

(** [func (c *cache) initExpiration()]; [now_at k] is the value of
    [time.Now().Unix()] on line 113 in the iteration that visits key [k].
    [sweep_test] is the condition of line 113 on the entry [kv = (k, v)] and
    [sweep_body] the body of the loop, lines 113-115. *)
Definition sweep_test (now_at : string -> Z) (kv : string * Item V) : bool :=
  Expiration kv.2 >=? now_at kv.1.

Definition sweep_body (now_at : string -> Z) (kv : string * Item V) : M V unit :=
  if sweep_test now_at kv then items_delete kv.1 else ret tt.

Definition initExpiration (now_at : string -> Z) : M V unit :=
  Lock ;;
  kvs <- items_range ;;
  for_each kvs (sweep_body now_at) ;;
  Unlock.

End Methods.

(** ** The background goroutine and [Close] *)

(** Program points of the goroutine started on lines 51-57:
    [defer c.wg.Done(); for { c.initExpiration(); time.Sleep(...) }].
    [AtReturn] is the exit of the function literal, where the deferred
    [c.wg.Done()] runs; [Finished] is the goroutine after it has ended. *)
Inductive sweeper_pc : Type := AtInitExpiration | AtSleep | AtReturn | Finished.

(** Where the goroutine using the handle is: issuing calls, inside
    [c.wg.Wait()] of [Close], or back from [Close]. *)
Inductive caller_pc : Type := Calling | InClose | Closed.

(** One call on the handle, or one pass of [initExpiration]. *)
Inductive op (V : Type) : Type :=
  | OpGet (now : Z) (key : string)
  | OpSet (now : Z) (key : string) (value : V) (expirationTime : Z)
  | OpUpdate (key : string) (value : V) (expirationTime : Z) (setIfNotExist : bool)
  | OpSweep (now_at : string -> Z).
Arguments OpGet {V} _ _.
Arguments OpSet {V} _ _ _ _.
Arguments OpUpdate {V} _ _ _ _.
Arguments OpSweep {V} _.

(** What the caller of an operation sees. *)
Inductive outcome (V : Type) : Type :=
  | Returned (item : option (Item V)) (err : option error)
  | Swept.
Arguments Returned {V} _ _.
Arguments Swept {V}.

Record system (V : Type) : Type := mkSystem {
  shared : cache V;
  sweeper : sweeper_pc;
  caller : caller_pc
}.
Arguments mkSystem {V} _ _ _.
Arguments shared {V} _.
Arguments sweeper {V} _.
Arguments caller {V} _.

(** What the scheduler lets happen next. *)
Inductive action (V : Type) : Type :=
  | ActSweeper (now_at : string -> Z)
  | ActCall (o : op V)
  | ActClose
  | ActWake.
Arguments ActSweeper {V} _.
Arguments ActCall {V} _.
Arguments ActClose {V}.
Arguments ActWake {V}.

Section Lifecycle.
Context {V : Type}.

(** One step of the goroutine.  The [for] statement has no condition and its
    body has neither [break] nor [return]: after [time.Sleep] control goes
    back to [c.initExpiration()], and no program point leads to [AtReturn]. *)
Definition sweeper_step (now_at : string -> Z) (pc : sweeper_pc) (c : cache V)
  : sweeper_pc * cache V :=
  match pc with
  | AtInitExpiration => (AtSleep, cache_of (initExpiration now_at c))
  | AtSleep => (AtInitExpiration, c)
  | AtReturn => (Finished, with_wg (Nat.pred (wg c)) c)
  | Finished => (Finished, c)
  end.

(** [func (c *Cache) Close()] is [c.wg.Wait()]: it returns once the counter
    of the wait group is zero and blocks ([None]) as long as it is not. *)
Definition Close (c : Cache V) : option unit :=
  match wg c with
  | O => Some tt
  | S _ => None
  end.

Definition apply_op (o : op V) : M V (outcome V) :=
  match o with
  | OpGet now key =>
      fun c => let '(r, c', l) := Get now key c in (Returned r.1 r.2, c', l)
  | OpSet now key value expirationTime =>
      fun c =>
        let '(r, c', l) := Set_ now key value expirationTime c in
        (Returned r.1 r.2, c', l)
  | OpUpdate key value expirationTime setIfNotExist =>
      fun c =>
        let '(r, c', l) := Update key value expirationTime setIfNotExist c in
        (Returned r.1 r.2, c', l)
  | OpSweep now_at =>
      fun c => let '(_, c', l) := initExpiration now_at c in (Swept, c', l)
  end.

(** A sequence of operations, each running to completion before the next. *)
Fixpoint run (ops : list (op V)) (c : cache V) : list (outcome V) * cache V :=
  match ops with
  | [] => ([], c)
  | o :: ops' =>
      let r := apply_op o c in
      let rest := run ops' (cache_of r) in
      (value_of r :: rest.1, rest.2)
  end.

(** The cache right after [NewCache]: the goroutine is about to make its
    first pass and the caller holds the handle. *)
Definition start (defaultExpiration : Z) : system V :=
  mkSystem (NewCache defaultExpiration).1 AtInitExpiration Calling.

(** One scheduling decision.  An action that is not enabled (a call after
    [Close] was entered, a wake-up while the counter is positive, a step of
    a goroutine that has ended) leaves the system as it is. *)
Definition sys_step (a : action V) (s : system V) : system V :=
  match a with
  | ActSweeper now_at =>
      let '(pc, c) := sweeper_step now_at (sweeper s) (shared s) in
      mkSystem c pc (caller s)
  | ActCall o =>
      match caller s with
      | Calling => mkSystem (cache_of (apply_op o (shared s))) (sweeper s) Calling
      | _ => s
      end
  | ActClose =>
      match caller s with
      | Calling => mkSystem (shared s) (sweeper s) InClose
      | _ => s
      end
  | ActWake =>
      match caller s, Close (shared s) with
      | InClose, Some _ => mkSystem (shared s) (sweeper s) Closed
      | _, _ => s
      end
  end.

Definition schedule (acts : list (action V)) (s : system V) : system V :=
  foldl (fun s a => sys_step a s) s acts.

(** ** Predicates used by the statements *)

(** The lock discipline of one access: a write needs the write lock, a read
    at least the read lock. *)
Definition disciplined (e : event) : bool :=
  match e with
  | (WriteItems, WLocked) => true
  | (WriteItems, _) => false
  | (ReadItems, Unlocked) => false
  | (ReadItems, _) => true
  end.

Definition sets_key (key : string) (o : op V) : bool :=
  match o with
  | OpSet _ k _ _ => bool_decide (k = key)
  | _ => false
  end.

Definition never_set (key : string) (ops : list (op V)) : bool :=
  forallb (fun o => negb (sets_key key o)) ops.

(** Every clock reading of the operation is at or after the Unix epoch. *)
Definition clock_after_epoch (o : op V) : Prop :=
  match o with
  | OpGet now _ => 0 <= now
  | OpSet now _ _ _ => 0 <= now
  | OpUpdate _ _ _ _ => True
  | OpSweep now_at => forall k, 0 <= now_at k
  end.

(** A computation that neither reads nor writes [defaultExpr]. *)
Definition indep {A} (m : M V A) : Prop :=
  forall d c,
    m (with_defaultExpr d c) =
      (value_of (m c), with_defaultExpr d (cache_of (m c)), log_of (m c)).

(** The goroutine is inside its loop, the counter of the wait group is
    still 1 and [Close] has not returned. *)
Definition in_loop (s : system V) : Prop :=
  wg (shared s) = 1%nat
  /\ (sweeper s = AtInitExpiration \/ sweeper s = AtSleep)
  /\ caller s <> Closed.

(** The keys that the operations of a sequence pass to [Set]. *)
Fixpoint set_keys (ops : list (op V)) : gset string :=
  match ops with
  | [] => ∅
  | OpSet _ k _ _ :: ops' => {[ k ]} ∪ set_keys ops'
  | _ :: ops' => set_keys ops'
  end.

End Lifecycle.

(** ** Caches used as examples

    Values are integers, the clock reads 100. *)

Definition fresh : cache Z := (NewCache DefaultExpiration).1.

(** ["a"] expires ten seconds from now. *)
Definition with_future : cache Z := cache_of (Set_ 100 "a" 42 110 fresh).

(** ["a"] expired ten seconds ago. *)
Definition with_past : cache Z := cache_of (Set_ 80 "a" 42 90 fresh).

(** ["a"] and ["b"] both expired. *)
Definition two_past : cache Z := cache_of (Set_ 80 "b" 7 95 with_past).

(** ["a"] never expires. *)
Definition with_sentinel : cache Z :=
  cache_of (Set_ 100 "a" 42 NoExpiration fresh).

Definition busy_day : list (op Z) :=
  [ OpSweep (fun _ => 100); OpGet 100 "a"; OpSet 101 "a" 99 200;
    OpUpdate "a" 7 300 true; OpSet 102 "b" 1 50; OpSweep (fun _ => 1000);
    OpGet 2000 "a"; OpGet 2000 "b" ].

Definition only_a : list (op Z) :=
  [ OpSet 100 "a" 42 110; OpGet 100 "b"; OpUpdate "b" 1 200 true;
    OpSweep (fun _ => 100); OpGet 105 "a" ].

(** ** Equations of the methods *)

Section Equations.
Context {V : Type}.
Implicit Types (c : cache V) (key k : string) (it : Item V) (now : Z).

Lemma Get_absent c key now :
  items c !! key = None ->
  Get now key c =
    ((None, Some errKeyDoesNotExist), with_mut Unlocked c, [(ReadItems, RLocked)]).
Proof. intros H. unfold Get, bind; simpl. by rewrite H. Qed.

Lemma Get_evict c key it now :
  items c !! key = Some it -> now <= Expiration it ->
  Get now key c =
    ((None, Some errKeyDoesNotExist),
     with_mut Unlocked (with_items (delete key (items c)) c),
     [(ReadItems, RLocked); (WriteItems, RLocked)]).
Proof.
  intros H Hle. unfold Get, bind; simpl. rewrite H.
  assert ((Expiration it >=? now) = true) as -> by (apply Z.geb_le; lia).
  reflexivity.
Qed.

Lemma Get_keep c key it now :
  items c !! key = Some it -> Expiration it < now ->
  Get now key c = ((Some it, None), with_mut Unlocked c, [(ReadItems, RLocked)]).
Proof.
  intros H Hlt. unfold Get, bind; simpl. rewrite H.
  assert ((Expiration it >=? now) = false) as ->.
  { destruct (Expiration it >=? now) eqn:E; [apply Z.geb_le in E; lia | done]. }
  reflexivity.
Qed.

Lemma Set_fresh c key (value : V) expirationTime now :
  items c !! key = None ->
  Set_ now key value expirationTime c =
    ((Some (mkItem value expirationTime now), None),
     with_mut Unlocked
       (with_items (<[key := mkItem value expirationTime now]> (items c)) c),
     [(ReadItems, WLocked); (WriteItems, WLocked)]).
Proof. intros H. unfold Set_, bind; simpl. by rewrite H. Qed.

Lemma Set_present c key it (value : V) expirationTime now :
  items c !! key = Some it ->
  Set_ now key value expirationTime c =
    ((Some it, Some errKeyAlreadyExists), with_mut Unlocked c,
     [(ReadItems, WLocked)]).
Proof. intros H. unfold Set_, bind; simpl. by rewrite H. Qed.

(** A call of [Get] or [Set] touches no key but its own. *)
Lemma Get_other c key k now :
  k <> key -> items (cache_of (Get now key c)) !! k = items c !! k.
Proof.
  intros Hne. destruct (items c !! key) as [it|] eqn:H.
  - destruct (Z_lt_le_dec (Expiration it) now) as [Hlt|Hle].
    + by rewrite (Get_keep _ _ _ _ H Hlt).
    + rewrite (Get_evict _ _ _ _ H Hle). simpl. by rewrite lookup_delete_ne.
  - by rewrite (Get_absent _ _ _ H).
Qed.

Lemma Set_other c key k (value : V) expirationTime now :
  k <> key ->
  items (cache_of (Set_ now key value expirationTime c)) !! k = items c !! k.
Proof.
  intros Hne. destruct (items c !! key) as [it|] eqn:H.
  - by rewrite (Set_present _ _ _ _ _ _ H).
  - rewrite (Set_fresh _ _ _ _ _ H). simpl. by rewrite lookup_insert_ne.
Qed.

(** *** The sweep loop *)

Lemma cache_of_bind {A B} (m : M V A) (f : A -> M V B) c :
  cache_of (bind m f c) = cache_of (f (value_of (m c)) (cache_of (m c))).
Proof.
  unfold bind, cache_of, value_of.
  destruct (m c) as [[a c1] l1]; simpl. by destruct (f a c1) as [[b c2] l2].
Qed.

Lemma log_of_bind {A B} (m : M V A) (f : A -> M V B) c :
  log_of (bind m f c) =
    log_of (m c) ++ log_of (f (value_of (m c)) (cache_of (m c))).
Proof.
  unfold bind, cache_of, value_of, log_of.
  destruct (m c) as [[a c1] l1]; simpl. by destruct (f a c1) as [[b c2] l2].
Qed.

Lemma initExpiration_cache now_at c :
  cache_of (initExpiration now_at c) =
    with_mut Unlocked
      (cache_of (for_each (map_to_list (items c)) (sweep_body now_at)
                   (with_mut WLocked c))).
Proof.
  unfold initExpiration. rewrite !cache_of_bind. reflexivity.
Qed.

Lemma initExpiration_log now_at c :
  log_of (initExpiration now_at c) =
    (ReadItems, WLocked)
      :: log_of (for_each (map_to_list (items c)) (sweep_body now_at)
                   (with_mut WLocked c)) ++ [].
Proof.
  unfold initExpiration. rewrite !log_of_bind, ?cache_of_bind. reflexivity.
Qed.

Lemma for_each_cons_cache {A} (x : A) l (body : A -> M V unit) c :
  cache_of (for_each (x :: l) body c) = cache_of (for_each l body (cache_of (body x c))).
Proof. cbn [for_each]. by rewrite cache_of_bind. Qed.

Lemma sweep_body_cache now_at kv c :
  cache_of (sweep_body now_at kv c) =
    if sweep_test now_at kv then with_items (delete kv.1 (items c)) c else c.
Proof. unfold sweep_body. by destruct (sweep_test now_at kv). Qed.

(** The loop leaves every field but [items] alone. *)
Lemma for_each_sweep_frame now_at (l : list (string * Item V)) c :
  let c' := cache_of (for_each l (sweep_body now_at) c) in
  defaultExpr c' = defaultExpr c /\ checkExpiredInterval c' = checkExpiredInterval c
  /\ mut c' = mut c /\ wg c' = wg c.
Proof.
  revert c. induction l as [|kv l IH]; intros c; [done|].
  cbv zeta in *. rewrite for_each_cons_cache, sweep_body_cache.
  destruct (sweep_test now_at kv); [|apply IH].
  destruct (IH (with_items (delete kv.1 (items c)) c)) as (-> & -> & -> & ->).
  done.
Qed.

(** An absent key stays absent: the loop only deletes. *)
Lemma for_each_sweep_absent now_at (l : list (string * Item V)) c k :
  items c !! k = None ->
  items (cache_of (for_each l (sweep_body now_at) c)) !! k = None.
Proof.
  revert c. induction l as [|kv l IH]; intros c H; [done|].
  rewrite for_each_cons_cache, sweep_body_cache.
  destruct (sweep_test now_at kv); apply IH; [|done]. simpl.
  destruct (decide (kv.1 = k)) as [->|Hne];
    [apply lookup_delete_eq | by rewrite lookup_delete_ne].
Qed.

(** A key none of whose visits passes the test of line 113 is kept. *)
Lemma for_each_sweep_kept now_at (l : list (string * Item V)) c k :
  (forall it, (k, it) ∈ l -> Expiration it < now_at k) ->
  items (cache_of (for_each l (sweep_body now_at) c)) !! k = items c !! k.
Proof.
  revert c. induction l as [|kv l IH]; intros c H; [done|].
  rewrite for_each_cons_cache, sweep_body_cache.
  assert (forall it, (k, it) ∈ l -> Expiration it < now_at k) as Hl
    by (intros it Hin; apply H; by right).
  destruct (sweep_test now_at kv) eqn:E; rewrite IH by done; [|done]. simpl.
  destruct (decide (kv.1 = k)) as [Heq|Hne]; [|by rewrite lookup_delete_ne].
  exfalso. unfold sweep_test in E. apply Z.geb_le in E.
  destruct kv as [k' it']; simpl in *; subst.
  specialize (H it' ltac:(left)). lia.
Qed.

(** A key one of whose visits passes the test of line 113 is deleted. *)
Lemma for_each_sweep_deleted now_at (l : list (string * Item V)) c k it :
  (k, it) ∈ l -> now_at k <= Expiration it ->
  items (cache_of (for_each l (sweep_body now_at) c)) !! k = None.
Proof.
  revert c. induction l as [|kv l IH]; intros c Hin Hle; [by inversion Hin|].
  rewrite for_each_cons_cache.
  apply elem_of_cons in Hin as [<-|Hin]; [|by apply IH].
  rewrite sweep_body_cache. unfold sweep_test. simpl.
  assert ((Expiration it >=? now_at k) = true) as -> by (apply Z.geb_le; lia).
  apply for_each_sweep_absent. simpl. apply lookup_delete_eq.
Qed.

(** What a pass of [initExpiration] leaves of the map. *)
Lemma initExpiration_lookup now_at c k :
  items (cache_of (initExpiration now_at c)) !! k =
    match items c !! k with
    | Some it => if Expiration it >=? now_at k then None else Some it
    | None => None
    end.
Proof.
  rewrite initExpiration_cache. simpl.
  destruct (items c !! k) as [it|] eqn:H.
  - destruct (Expiration it >=? now_at k) eqn:E.
    + apply for_each_sweep_deleted with (it := it).
      * by apply elem_of_map_to_list.
      * by apply Z.geb_le.
    + rewrite for_each_sweep_kept; [done|].
      intros it' Hin. apply elem_of_map_to_list in Hin. simpl in Hin.
      assert (it' = it) as -> by congruence.
      destruct (Z_lt_le_dec (Expiration it) (now_at k)) as [?|Hle]; [done|].
      apply Z.geb_le in Hle. congruence.
  - by apply for_each_sweep_absent.
Qed.

Lemma initExpiration_frame now_at c :
  let c' := cache_of (initExpiration now_at c) in
  defaultExpr c' = defaultExpr c /\ checkExpiredInterval c' = checkExpiredInterval c
  /\ mut c' = Unlocked /\ wg c' = wg c.
Proof.
  cbv zeta. rewrite initExpiration_cache. simpl.
  pose proof (for_each_sweep_frame now_at (map_to_list (items c))
                (with_mut WLocked c)) as (H1 & H2 & _ & H4).
  simpl in *. auto.
Qed.

(** Every access of the loop is a write made with the lock of the cache. *)
Lemma for_each_sweep_log now_at (l : list (string * Item V)) c :
  Forall (fun e => e = (WriteItems, mut c))
    (log_of (for_each l (sweep_body now_at) c)).
Proof.
  revert c. induction l as [|kv l IH]; intros c; [by constructor|].
  cbn [for_each]. rewrite log_of_bind. apply Forall_app. split.
  - unfold sweep_body. destruct (sweep_test now_at kv); simpl; by repeat constructor.
  - rewrite sweep_body_cache.
    destruct (sweep_test now_at kv); [|apply IH].
    apply (IH (with_items (delete kv.1 (items c)) c)).
Qed.

End Equations.

(** ** Sequences of operations *)

Section Sequences.
Context {V : Type}.
Implicit Types (c : cache V) (key k : string) (it : Item V) (now : Z)
  (o : op V) (ops : list (op V)).

Lemma apply_op_cache o c :
  cache_of (apply_op o c) =
    match o with
    | OpGet now key => cache_of (Get now key c)
    | OpSet now key value e => cache_of (Set_ now key value e c)
    | OpUpdate key value e b => cache_of (Update key value e b c)
    | OpSweep now_at => cache_of (initExpiration now_at c)
    end.
Proof.
  destruct o; simpl.
  - by destruct (Get now key c) as [[r c'] l].
  - by destruct (Set_ now key value expirationTime c) as [[r c'] l].
  - reflexivity.
  - by destruct (initExpiration now_at c) as [[r c'] l].
Qed.

Lemma apply_op_value o c :
  value_of (apply_op o c) =
    match o with
    | OpGet now key =>
        let r := value_of (Get now key c) in Returned r.1 r.2
    | OpSet now key value e =>
        let r := value_of (Set_ now key value e c) in Returned r.1 r.2
    | OpUpdate key value e b => Returned None None
    | OpSweep now_at => Swept
    end.
Proof.
  destruct o; simpl.
  - by destruct (Get now key c) as [[r c'] l].
  - by destruct (Set_ now key value expirationTime c) as [[r c'] l].
  - reflexivity.
  - by destruct (initExpiration now_at c) as [[r c'] l].
Qed.

Lemma run_cons o ops c :
  run (o :: ops) c =
    (value_of (apply_op o c) :: (run ops (cache_of (apply_op o c))).1,
     (run ops (cache_of (apply_op o c))).2).
Proof. reflexivity. Qed.

(** No operation changes the counter of the wait group. *)
Lemma Get_wg c key now : wg (cache_of (Get now key c)) = wg c.
Proof.
  destruct (items c !! key) as [it|] eqn:H.
  - destruct (Z_lt_le_dec (Expiration it) now) as [Hlt|Hle].
    + by rewrite (Get_keep _ _ _ _ H Hlt).
    + by rewrite (Get_evict _ _ _ _ H Hle).
  - by rewrite (Get_absent _ _ _ H).
Qed.

Lemma Set_wg c key (value : V) e now : wg (cache_of (Set_ now key value e c)) = wg c.
Proof.
  destruct (items c !! key) as [it|] eqn:H.
  - by rewrite (Set_present _ _ _ _ _ _ H).
  - by rewrite (Set_fresh _ _ _ _ _ H).
Qed.

Lemma apply_op_wg o c : wg (cache_of (apply_op o c)) = wg c.
Proof.
  rewrite apply_op_cache. destruct o.
  - apply Get_wg.
  - apply Set_wg.
  - reflexivity.
  - apply initExpiration_frame.
Qed.

(** A key that is absent stays absent under every operation but a [Set] of
    that key. *)
Lemma apply_op_absent o c key :
  items c !! key = None -> sets_key key o = false ->
  items (cache_of (apply_op o c)) !! key = None.
Proof.
  intros H Hs. rewrite apply_op_cache. destruct o as [now k|now k v e|k v e b|now_at].
  - destruct (decide (key = k)) as [->|Hne].
    + by rewrite (Get_absent _ _ _ H).
    + by rewrite Get_other.
  - simpl in Hs. apply bool_decide_eq_false in Hs.
    rewrite Set_other; [done|congruence].
  - done.
  - rewrite initExpiration_lookup. by rewrite H.
Qed.

Lemma run_absent ops c key :
  items c !! key = None -> never_set key ops = true ->
  items (run ops c).2 !! key = None.
Proof.
  revert c. induction ops as [|o ops IH]; intros c H Hn; [done|].
  simpl in Hn. apply andb_true_iff in Hn as [Ho Hn].
  apply negb_true_iff in Ho.
  rewrite run_cons. simpl. apply IH; [|done]. by apply apply_op_absent.
Qed.

(** An entry with the sentinel survives every operation whose clock reads
    at or after the epoch: [-1 >= now] is false for [0 <= now]. *)
Lemma apply_op_sentinel o c key it :
  items c !! key = Some it -> Expiration it = NoExpiration ->
  clock_after_epoch o ->
  items (cache_of (apply_op o c)) !! key = Some it.
Proof.
  intros H He Hc. rewrite apply_op_cache.
  destruct o as [now k|now k v e|k v e b|now_at]; simpl in Hc.
  - destruct (decide (key = k)) as [->|Hne]; [|by rewrite Get_other].
    rewrite (Get_keep _ _ it); [done..|]. rewrite He. unfold NoExpiration. lia.
  - destruct (decide (key = k)) as [->|Hne]; [|by rewrite Set_other].
    by rewrite (Set_present _ _ it).
  - done.
  - rewrite initExpiration_lookup, H.
    destruct (Expiration it >=? now_at key) eqn:E; [|done].
    apply Z.geb_le in E. specialize (Hc key). rewrite He in E.
    unfold NoExpiration in E. lia.
Qed.

Lemma run_sentinel ops c key it :
  items c !! key = Some it -> Expiration it = NoExpiration ->
  Forall clock_after_epoch ops ->
  items (run ops c).2 !! key = Some it.
Proof.
  revert c. induction ops as [|o ops IH]; intros c H He Hc; [done|].
  apply Forall_cons in Hc as [Ho Hc].
  rewrite run_cons. simpl. apply IH; [|done..]. by apply apply_op_sentinel.
Qed.

(** *** Independence from [defaultExpr] *)

Lemma indep_ret {A} (a : A) : indep (ret (V := V) a).
Proof. by intros d c. Qed.

Lemma indep_bind {A B} (m : M V A) (f : A -> M V B) :
  indep m -> (forall a, indep (f a)) -> indep (bind m f).
Proof.
  intros Hm Hf d c. unfold bind. rewrite Hm.
  destruct (m c) as [[a c1] l1]. simpl. rewrite Hf.
  unfold value_of, cache_of, log_of. simpl.
  by destruct (f a c1) as [[b c2] l2].
Qed.

Lemma indep_RLock : indep (RLock (V := V)).
Proof. by intros d c. Qed.
Lemma indep_RUnlock : indep (RUnlock (V := V)).
Proof. by intros d c. Qed.
Lemma indep_Lock : indep (Lock (V := V)).
Proof. by intros d c. Qed.
Lemma indep_Unlock : indep (Unlock (V := V)).
Proof. by intros d c. Qed.
Lemma indep_items_index key : indep (items_index (V := V) key).
Proof. by intros d c. Qed.
Lemma indep_items_assign key it : indep (items_assign key it).
Proof. by intros d c. Qed.
Lemma indep_items_delete key : indep (items_delete (V := V) key).
Proof. by intros d c. Qed.
Lemma indep_items_range : indep (items_range (V := V)).
Proof. by intros d c. Qed.

Lemma indep_for_each {A} (l : list A) (body : A -> M V unit) :
  (forall x, indep (body x)) -> indep (for_each l body).
Proof.
  intros Hb. induction l as [|x l IH]; [apply indep_ret|].
  cbn [for_each]. apply indep_bind; [apply Hb | intros _; apply IH].
Qed.

Lemma indep_sweep_body now_at (kv : string * Item V) :
  indep (sweep_body now_at kv).
Proof.
  unfold sweep_body. destruct (sweep_test now_at kv);
    [apply indep_items_delete | apply indep_ret].
Qed.

Create HintDb indep.
#[local] Hint Resolve indep_ret indep_RLock indep_RUnlock indep_Lock indep_Unlock
  indep_items_index indep_items_assign indep_items_delete indep_items_range
  indep_sweep_body : indep.

Ltac indep_steps :=
  repeat first
    [ apply indep_bind; [ | intros ? ]
    | apply indep_for_each; intros ?
    | progress auto with indep
    | match goal with
      | |- indep (match ?x with _ => _ end) => destruct x
      end ].

Lemma indep_Get now key : indep (Get (V := V) now key).
Proof. unfold Get. indep_steps. Qed.

Lemma indep_Set now key (value : V) e : indep (Set_ now key value e).
Proof. unfold Set_. indep_steps. Qed.

Lemma indep_Update key (value : V) e b : indep (Update key value e b).
Proof. unfold Update. indep_steps. Qed.

Lemma indep_initExpiration now_at : indep (initExpiration (V := V) now_at).
Proof. unfold initExpiration. indep_steps. Qed.

Lemma indep_apply_op o : indep (apply_op o).
Proof.
  intros d c. destruct o; simpl.
  - rewrite indep_Get. by destruct (Get now key c) as [[r c'] l].
  - rewrite indep_Set.
    by destruct (Set_ now key value expirationTime c) as [[r c'] l].
  - reflexivity.
  - rewrite indep_initExpiration.
    by destruct (initExpiration now_at c) as [[r c'] l].
Qed.

Lemma run_with_defaultExpr ops d c :
  run ops (with_defaultExpr d c) =
    ((run ops c).1, with_defaultExpr d (run ops c).2).
Proof.
  revert c. induction ops as [|o ops IH]; intros c; [done|].
  rewrite !run_cons, indep_apply_op.
  change (value_of (?a, _, _)) with a. change (cache_of (_, ?b, _)) with b.
  simpl. by rewrite IH.
Qed.

(** *** The goroutine never leaves its loop *)

Lemma sys_step_in_loop (a : action V) s : in_loop s -> in_loop (sys_step a s).
Proof.
  intros (Hwg & Hpc & Hcl). unfold in_loop.
  destruct a as [now_at|o| |]; simpl.
  - destruct Hpc as [-> | ->]; simpl; repeat split; auto.
    destruct (initExpiration_frame now_at (shared s)) as (_ & _ & _ & Hw).
    by rewrite Hw.
  - destruct (caller s) eqn:E; simpl; rewrite ?E; repeat split; auto;
      try congruence.
    by rewrite apply_op_wg.
  - destruct (caller s) eqn:E; simpl; rewrite ?E; repeat split; auto;
      congruence.
  - unfold Close. rewrite Hwg.
    destruct (caller s) eqn:E; simpl; rewrite ?E; repeat split; auto.
Qed.

Lemma schedule_in_loop (acts : list (action V)) s :
  in_loop s -> in_loop (schedule acts s).
Proof.
  revert s. induction acts as [|a acts IH]; intros s H; [done|].
  simpl. apply IH. by apply sys_step_in_loop.
Qed.

End Sequences.

(** ** The properties of the specification *)

Section Properties.
Context {V : Type}.
Implicit Types (c : cache V) (key k : string) (it : Item V) (now : Z)
  (o : op V) (ops : list (op V)).

(** A pass of [initExpiration] keeps exactly the entries whose expiration
    instant is strictly before the clock reading of their visit. *)
Lemma initExpiration_filter now_at c :
  items (cache_of (initExpiration now_at c)) =
    filter (fun kv => Expiration kv.2 < now_at kv.1) (items c).
Proof.
  apply map_eq. intros k. rewrite initExpiration_lookup.
  destruct (items c !! k) as [it|] eqn:H.
  - destruct (Expiration it >=? now_at k) eqn:E.
    + symmetry. apply map_lookup_filter_None. right. intros it' Hit'.
      simpl. apply Z.geb_le in E. assert (it' = it) as -> by congruence. lia.
    + symmetry. apply map_lookup_filter_Some. split; [done|]. simpl.
      destruct (Z_lt_le_dec (Expiration it) (now_at k)) as [?|Hle]; [done|].
      apply Z.geb_le in Hle. congruence.
  - symmetry. apply map_lookup_filter_None. by left.
Qed.

(** The accesses of [Set] and of [initExpiration] follow the lock
    discipline. *)
Lemma Set_disciplined c key (value : V) e now :
  forallb disciplined (log_of (Set_ now key value e c)) = true.
Proof.
  destruct (items c !! key) as [it|] eqn:H.
  - by rewrite (Set_present _ _ _ _ _ _ H).
  - by rewrite (Set_fresh _ _ _ _ _ H).
Qed.

Lemma initExpiration_disciplined now_at c :
  forallb disciplined (log_of (initExpiration now_at c)) = true.
Proof.
  rewrite initExpiration_log. simpl. rewrite app_nil_r.
  apply forallb_forall. intros e He. apply list_elem_of_In in He.
  pose proof (for_each_sweep_log now_at (map_to_list (items c))
                (with_mut WLocked c)) as Hall.
  rewrite Forall_forall in Hall. by rewrite (Hall e He).
Qed.

(** C1, as the code behaves: for a key that is not in the cache and an
    expiration instant strictly after the clock reading of the read, [Set]
    succeeds and returns the new entry, but the [Get] that follows fails with
    "key does not exist" and deletes the entry again, because the test of
    line 75 evicts when [Expiration >= now]. *)
Theorem Set_then_Get_future_is_evicted c key (value : V) expirationTime now now' :
  items c !! key = None -> now' < expirationTime ->
  let s := Set_ now key value expirationTime c in
  let g := Get now' key (cache_of s) in
  value_of s = (Some (mkItem value expirationTime now), None)
  /\ items (cache_of s) !! key = Some (mkItem value expirationTime now)
  /\ value_of g = (None, Some errKeyDoesNotExist)
  /\ items (cache_of g) = items c.
Proof.
  intros H Hlt. cbv zeta. rewrite (Set_fresh _ _ _ _ _ H).
  change (cache_of (_, ?b, _)) with b. change (value_of (?a, _, _)) with a.
  rewrite (Get_evict _ key (mkItem value expirationTime now));
    [|apply lookup_insert_eq|simpl; lia].
  change (cache_of (_, ?b, _)) with b. change (value_of (?a, _, _)) with a.
  simpl. repeat split; [apply lookup_insert_eq|].
  by rewrite delete_insert_id.
Qed.

(** C2, as the code behaves: for an entry whose expiration instant is
    strictly before the current time, [Get] succeeds, returns the entry and
    leaves the map as it was; nothing is evicted. *)
Theorem Get_returns_expired_entry c key it now :
  items c !! key = Some it -> Expiration it < now ->
  value_of (Get now key c) = (Some it, None)
  /\ items (cache_of (Get now key c)) = items c.
Proof. intros H Hlt. by rewrite (Get_keep _ _ _ _ H Hlt). Qed.

(** C3: when an entry exists for the key, whatever its expiration instant,
    [Set] fails with "key already exists", returns the entry that is stored
    and leaves the whole map unchanged. *)
Theorem Set_never_overwrites c key it (value : V) expirationTime now :
  items c !! key = Some it ->
  value_of (Set_ now key value expirationTime c) = (Some it, Some errKeyAlreadyExists)
  /\ items (cache_of (Set_ now key value expirationTime c)) = items c.
Proof. intros H. by rewrite (Set_present _ _ _ _ _ _ H). Qed.

(** C4, as the code behaves: [Update] returns a nil entry and a nil error,
    touches neither the map nor any other field and makes no access to the
    map, whether the key exists or not and whatever [setIfNotExist] is. *)
Theorem Update_does_nothing c key (value : V) expirationTime setIfNotExist :
  Update key value expirationTime setIfNotExist c = ((None, None), c, []).
Proof. reflexivity. Qed.

(** C5, as the code behaves: when every entry of the map has an expiration
    instant strictly before the clock reading of its visit, a pass of
    [initExpiration] removes nothing. *)
Theorem sweep_keeps_expired_entries now_at c :
  map_Forall (fun k it => Expiration it < now_at k) (items c) ->
  items (cache_of (initExpiration now_at c)) = items c.
Proof.
  intros H. apply map_eq. intros k. rewrite initExpiration_lookup.
  destruct (items c !! k) as [it|] eqn:Hk; [|done].
  destruct (Expiration it >=? now_at k) eqn:E; [|done].
  apply Z.geb_le in E. specialize (H k it Hk). simpl in H. lia.
Qed.

(** C6: an entry whose expiration is the sentinel [NoExpiration] stays in
    the map, unchanged, through every sequence of [Get], [Set], [Update] and
    sweep passes whose clock readings are at or after the Unix epoch, and a
    [Get] of its key then succeeds, returns it and leaves the map as it is. *)
Theorem NoExpiration_entry_is_never_removed ops c key it now :
  items c !! key = Some it -> Expiration it = NoExpiration ->
  Forall clock_after_epoch ops -> 0 <= now ->
  let c' := (run ops c).2 in
  items c' !! key = Some it
  /\ value_of (Get now key c') = (Some it, None)
  /\ items (cache_of (Get now key c')) = items c'.
Proof.
  intros H He Hc Hnow c'. subst c'.
  pose proof (run_sentinel ops c key it H He Hc) as Hr.
  split; [done|].
  rewrite (Get_keep _ _ it); [done..|].
  rewrite He. unfold NoExpiration. lia.
Qed.

(** C7, as the code behaves: after [NewCache], under every schedule of the
    goroutine, of calls on the handle and of [Close], the goroutine is still
    inside its loop, the counter of the wait group is still 1, [Close] is
    blocked and the caller has not come back from it. *)
Theorem Close_never_returns (d : Z) (acts : list (action V)) :
  let s := schedule acts (start d) in
  caller s <> Closed
  /\ (sweeper s = AtInitExpiration \/ sweeper s = AtSleep)
  /\ wg (shared s) = 1%nat
  /\ Close (shared s) = None.
Proof.
  cbv zeta.
  assert (in_loop (start (V := V) d)) as H0.
  { repeat split; simpl; auto. }
  destruct (schedule_in_loop acts _ H0) as (Hwg & Hpc & Hcl).
  repeat split; auto. unfold Close. by rewrite Hwg.
Qed.

(** C8, as the code behaves: when [Get] finds an entry that passes the test
    of line 75 it deletes it from the map while it holds the read lock only,
    so the accesses of that call break the lock discipline. *)
Theorem Get_deletes_under_read_lock c key it now :
  items c !! key = Some it -> now <= Expiration it ->
  log_of (Get now key c) = [(ReadItems, RLocked); (WriteItems, RLocked)]
  /\ forallb disciplined (log_of (Get now key c)) = false.
Proof. intros H Hle. by rewrite (Get_evict _ _ _ _ H Hle). Qed.

(** C9: after [NewCache] and any sequence of operations that contains no
    [Set] of the key, [Get] of the key fails with "key does not exist" and
    leaves the map unchanged. *)
Theorem Get_of_key_never_set (d : Z) ops key now :
  never_set key ops = true ->
  let c := (run ops (NewCache d).1).2 in
  value_of (Get now key c) = (None, Some errKeyDoesNotExist)
  /\ items (cache_of (Get now key c)) = items c.
Proof.
  intros Hn c.
  assert (items c !! key = None) as H.
  { subst c. apply run_absent; [|done]. simpl. apply lookup_empty. }
  by rewrite (Get_absent _ _ _ H).
Qed.

(** C10: two caches built with different [defaultExpiration] values give,
    for every sequence of [Get], [Set], [Update] and sweep passes, the same
    results and the same map. *)
Theorem defaultExpr_is_never_observed (d1 d2 : Z) ops :
  (run ops (NewCache d1).1).1 = (run ops (NewCache d2).1).1
  /\ items (run ops (NewCache d1).1).2 = items (run ops (NewCache d2).1).2.
Proof.
  change ((NewCache (V := V) d2).1)
    with (with_defaultExpr d2 (NewCache (V := V) d1).1).
  rewrite run_with_defaultExpr. split; reflexivity.
Qed.

End Properties.

(** ** The properties at the example caches *)

Example with_future_items :
  items with_future = {[ "a"%string := mkItem 42 110 100 ]}.
Proof. reflexivity. Qed.

Example two_past_items :
  items two_past =
    <[ "b"%string := mkItem 7 95 80 ]> {[ "a"%string := mkItem 42 90 80 ]}.
Proof. reflexivity. Qed.

(** The scenario of the specification: the second [Set] is refused and
    returns the entry holding 42; eleven seconds later [Get] still returns
    that entry. *)
Example scenario_second_Set :
  value_of (Set_ 100 "a" 99 110 with_future) =
    (Some (mkItem 42 110 100), Some errKeyAlreadyExists).
Proof. reflexivity. Qed.

Example scenario_Get_after_expiry :
  value_of (Get 111 "a" with_future) = (Some (mkItem 42 110 100), None).
Proof. reflexivity. Qed.

Lemma Set_then_Get_future_is_evicted_witness :
  items fresh !! "a"%string = None /\ 100 < 110
  /\ value_of (Set_ 100 "a" 42 110 fresh) = (Some (mkItem 42 110 100), None)
  /\ items (cache_of (Set_ 100 "a" 42 110 fresh)) !! "a"%string
       = Some (mkItem 42 110 100)
  /\ value_of (Get 100 "a" (cache_of (Set_ 100 "a" 42 110 fresh)))
       = (None, Some errKeyDoesNotExist)
  /\ items (cache_of (Get 100 "a" (cache_of (Set_ 100 "a" 42 110 fresh))))
       = items fresh.
Proof.
  split; [reflexivity|]. split; [lia|].
  apply (Set_then_Get_future_is_evicted fresh "a" 42 110 100 100);
    [reflexivity | lia].
Defined.

Lemma Get_returns_expired_entry_witness :
  items with_past !! "a"%string = Some (mkItem 42 90 80) /\ 90 < 100
  /\ value_of (Get 100 "a" with_past) = (Some (mkItem 42 90 80), None)
  /\ items (cache_of (Get 100 "a" with_past)) = items with_past.
Proof.
  split; [reflexivity|]. split; [lia|].
  apply (Get_returns_expired_entry with_past "a" (mkItem 42 90 80) 100);
    [reflexivity | simpl; lia].
Defined.

Lemma Set_never_overwrites_witness :
  items with_future !! "a"%string = Some (mkItem 42 110 100)
  /\ value_of (Set_ 100 "a" 99 110 with_future)
       = (Some (mkItem 42 110 100), Some errKeyAlreadyExists)
  /\ items (cache_of (Set_ 100 "a" 99 110 with_future)) = items with_future.
Proof.
  split; [reflexivity|].
  apply (Set_never_overwrites with_future "a" (mkItem 42 110 100) 99 110 100).
  reflexivity.
Defined.

Lemma sweep_keeps_expired_entries_witness :
  map_Forall (fun (k : string) (it : Item Z) => Expiration it < 100) (items two_past)
  /\ items (cache_of (initExpiration (fun _ => 100) two_past)) = items two_past.
Proof.
  assert (map_Forall (fun (k : string) (it : Item Z) => Expiration it < 100)
            (items two_past)) as H.
  { apply map_Forall_insert_2; [simpl; lia|].
    apply map_Forall_singleton. simpl; lia. }
  split; [exact H|].
  apply (sweep_keeps_expired_entries (fun _ => 100) two_past H).
Defined.

Lemma NoExpiration_entry_is_never_removed_witness :
  items with_sentinel !! "a"%string = Some (mkItem 42 NoExpiration 100)
  /\ Forall clock_after_epoch busy_day
  /\ items (run busy_day with_sentinel).2 !! "a"%string
       = Some (mkItem 42 NoExpiration 100)
  /\ value_of (Get 3000 "a" (run busy_day with_sentinel).2)
       = (Some (mkItem 42 NoExpiration 100), None)
  /\ items (cache_of (Get 3000 "a" (run busy_day with_sentinel).2))
       = items (run busy_day with_sentinel).2.
Proof.
  assert (Forall clock_after_epoch busy_day) as H.
  { repeat constructor; simpl; intros; lia. }
  split; [reflexivity|]. split; [exact H|].
  apply (NoExpiration_entry_is_never_removed busy_day with_sentinel "a"
           (mkItem 42 NoExpiration 100) 3000);
    [reflexivity | reflexivity | exact H | lia].
Defined.

Lemma Get_deletes_under_read_lock_witness :
  items with_future !! "a"%string = Some (mkItem 42 110 100) /\ 100 <= 110
  /\ log_of (Get 100 "a" with_future)
       = [(ReadItems, RLocked); (WriteItems, RLocked)]
  /\ forallb disciplined (log_of (Get 100 "a" with_future)) = false.
Proof.
  split; [reflexivity|]. split; [lia|].
  apply (Get_deletes_under_read_lock with_future "a" (mkItem 42 110 100) 100);
    [reflexivity | simpl; lia].
Defined.

Lemma Get_of_key_never_set_witness :
  never_set "b" only_a = true
  /\ value_of (Get 100 "b" (run only_a (NewCache DefaultExpiration).1).2)
       = (None, Some errKeyDoesNotExist)
  /\ items (cache_of (Get 100 "b" (run only_a (NewCache DefaultExpiration).1).2))
       = items (run only_a (NewCache DefaultExpiration).1).2.
Proof.
  split; [reflexivity|].
  apply (Get_of_key_never_set DefaultExpiration only_a "b" 100).
  reflexivity.
Defined.

(** ** Further properties of the methods *)

Section Further.
Context {V : Type}.
Implicit Types (c : cache V) (key k : string) (it : Item V) (now : Z)
  (o : op V) (ops : list (op V)).

(** X1: whether it succeeds or not, [Set] returns a non-nil item, and that
    item is the entry the map holds for the key when the call returns. *)
Theorem Set_returns_the_stored_entry c key (value : V) expirationTime now :
  exists it,
    (value_of (Set_ now key value expirationTime c)).1 = Some it
    /\ items (cache_of (Set_ now key value expirationTime c)) !! key = Some it.
Proof.
  destruct (items c !! key) as [it|] eqn:H.
  - exists it. by rewrite (Set_present _ _ _ _ _ _ H).
  - exists (mkItem value expirationTime now).
    rewrite (Set_fresh _ _ _ _ _ H). split; [done|]. apply lookup_insert_eq.
Qed.

(** X2: the error of [Set] is nil exactly when the key was absent, and it is
    "key already exists" exactly when the key was present. *)
Theorem Set_error_iff_present c key (value : V) expirationTime now :
  ((value_of (Set_ now key value expirationTime c)).2 = None
     <-> items c !! key = None)
  /\ ((value_of (Set_ now key value expirationTime c)).2 = Some errKeyAlreadyExists
     <-> is_Some (items c !! key)).
Proof.
  destruct (items c !! key) as [it|] eqn:H.
  - rewrite (Set_present _ _ _ _ _ _ H). simpl.
    split; split; intros Hx; try done; by eexists.
  - rewrite (Set_fresh _ _ _ _ _ H). simpl.
    split; split; intros Hx; try done; by destruct Hx.
Qed.

(** X3: an item returned by [Get] is the entry stored under the key, its
    expiration instant is strictly before the clock reading, the error is
    nil and the map is left as it was. *)
Theorem Get_success_is_sound c key it now :
  (value_of (Get now key c)).1 = Some it ->
  items c !! key = Some it /\ Expiration it < now
  /\ (value_of (Get now key c)).2 = None
  /\ items (cache_of (Get now key c)) = items c.
Proof.
  destruct (items c !! key) as [it'|] eqn:H.
  - destruct (Z_lt_le_dec (Expiration it') now) as [Hlt|Hle].
    + rewrite (Get_keep _ _ _ _ H Hlt). simpl. intros [= ->]. done.
    + rewrite (Get_evict _ _ _ _ H Hle). simpl. done.
  - rewrite (Get_absent _ _ _ H). simpl. done.
Qed.

(** X4: when [Get] returns a nil item, the error is "key does not exist"
    and the key is absent from the map when the call returns. *)
Theorem Get_failure_leaves_key_absent c key now :
  (value_of (Get now key c)).1 = None ->
  (value_of (Get now key c)).2 = Some errKeyDoesNotExist
  /\ items (cache_of (Get now key c)) !! key = None.
Proof.
  destruct (items c !! key) as [it'|] eqn:H.
  - destruct (Z_lt_le_dec (Expiration it') now) as [Hlt|Hle].
    + rewrite (Get_keep _ _ _ _ H Hlt). simpl. done.
    + rewrite (Get_evict _ _ _ _ H Hle). simpl. intros _.
      split; [done|]. apply lookup_delete_eq.
  - rewrite (Get_absent _ _ _ H). simpl. done.
Qed.

(** X5: after a [Get] that failed, a [Set] of the same key succeeds and
    stores the new entry. *)
Theorem Set_after_failed_Get_succeeds c key (value : V) expirationTime now now' :
  (value_of (Get now key c)).1 = None ->
  value_of (Set_ now' key value expirationTime (cache_of (Get now key c)))
    = (Some (mkItem value expirationTime now'), None)
  /\ items (cache_of (Set_ now' key value expirationTime (cache_of (Get now key c))))
       !! key = Some (mkItem value expirationTime now').
Proof.
  intros Hf.
  assert (items (cache_of (Get now key c)) !! key = None) as Habs.
  { destruct (items c !! key) as [it'|] eqn:H.
    - destruct (Z_lt_le_dec (Expiration it') now) as [Hlt|Hle].
      + rewrite (Get_keep _ _ _ _ H Hlt) in Hf. simpl in Hf. done.
      + rewrite (Get_evict _ _ _ _ H Hle). simpl. apply lookup_delete_eq.
    - by rewrite (Get_absent _ _ _ H). }
  rewrite (Set_fresh _ _ _ _ _ Habs). split; [done|]. apply lookup_insert_eq.
Qed.

(** X6: [Get] and [Set] leave the entries of all other keys as they are. *)
Theorem Get_and_Set_touch_only_their_key c key k (value : V) expirationTime now :
  k <> key ->
  items (cache_of (Get now key c)) !! k = items c !! k
  /\ items (cache_of (Set_ now key value expirationTime c)) !! k = items c !! k.
Proof. intros Hne. split; [by apply Get_other | by apply Set_other]. Qed.

(** X7: no operation replaces an entry: after any single operation the key
    of an existing entry holds that same entry or nothing. *)
Theorem no_operation_overwrites o c k it :
  items c !! k = Some it ->
  items (cache_of (apply_op o c)) !! k = Some it
  \/ items (cache_of (apply_op o c)) !! k = None.
Proof.
  intros H. rewrite apply_op_cache.
  destruct o as [now key|now key v e|key v e b|now_at].
  - destruct (decide (k = key)) as [->|Hne]; [|left; by rewrite Get_other].
    destruct (Z_lt_le_dec (Expiration it) now) as [Hlt|Hle].
    + left. by rewrite (Get_keep _ _ _ _ H Hlt).
    + right. rewrite (Get_evict _ _ _ _ H Hle). apply lookup_delete_eq.
  - left. destruct (decide (k = key)) as [->|Hne]; [|by rewrite Set_other].
    by rewrite (Set_present _ _ _ _ _ _ H).
  - by left.
  - rewrite initExpiration_lookup, H.
    destruct (Expiration it >=? now_at k); [by right | by left].
Qed.

(** X8: [Get], [Set] and [initExpiration] return with the lock released on
    every path, whatever the map holds. *)
Theorem methods_release_the_lock c key (value : V) expirationTime now now_at :
  mut (cache_of (Get now key c)) = Unlocked
  /\ mut (cache_of (Set_ now key value expirationTime c)) = Unlocked
  /\ mut (cache_of (initExpiration now_at c)) = Unlocked.
Proof.
  split; [|split].
  - destruct (items c !! key) as [it'|] eqn:H.
    + destruct (Z_lt_le_dec (Expiration it') now) as [Hlt|Hle].
      * by rewrite (Get_keep _ _ _ _ H Hlt).
      * by rewrite (Get_evict _ _ _ _ H Hle).
    + by rewrite (Get_absent _ _ _ H).
  - destruct (items c !! key) as [it'|] eqn:H.
    + by rewrite (Set_present _ _ _ _ _ _ H).
    + by rewrite (Set_fresh _ _ _ _ _ H).
  - apply initExpiration_frame.
Qed.

(** X9: the accesses of a call of [Get] follow the lock discipline exactly
    when the call leaves the map unchanged. *)
Theorem Get_disciplined_iff_map_unchanged c key now :
  forallb disciplined (log_of (Get now key c)) = true
  <-> items (cache_of (Get now key c)) = items c.
Proof.
  destruct (items c !! key) as [it'|] eqn:H.
  - destruct (Z_lt_le_dec (Expiration it') now) as [Hlt|Hle].
    + by rewrite (Get_keep _ _ _ _ H Hlt).
    + rewrite (Get_evict _ _ _ _ H Hle). simpl. split; [done|].
      intros Heq. exfalso.
      assert (delete key (items c) !! key = Some it') as Hd by (by rewrite Heq).
      rewrite lookup_delete_eq in Hd. done.
  - by rewrite (Get_absent _ _ _ H).
Qed.

(** X10: a pass of [initExpiration] run again with the same clock readings
    removes nothing more. *)
Theorem sweep_is_idempotent now_at c :
  items (cache_of (initExpiration now_at (cache_of (initExpiration now_at c))))
    = items (cache_of (initExpiration now_at c)).
Proof.
  apply map_eq. intros k. rewrite !initExpiration_lookup.
  destruct (items c !! k) as [it|]; [|done].
  destruct (Expiration it >=? now_at k) eqn:E; [done|]. by rewrite E.
Qed.

(** X11: a pass of [initExpiration] only deletes: the map it leaves is
    included in the map it found, and the configuration and the counter of
    the wait group are as before. *)
Theorem sweep_only_removes now_at c :
  items (cache_of (initExpiration now_at c)) ⊆ items c
  /\ defaultExpr (cache_of (initExpiration now_at c)) = defaultExpr c
  /\ checkExpiredInterval (cache_of (initExpiration now_at c))
       = checkExpiredInterval c
  /\ wg (cache_of (initExpiration now_at c)) = wg c.
Proof.
  destruct (initExpiration_frame now_at c) as (H1 & H2 & _ & H4).
  repeat split; [|done..].
  apply map_subseteq_spec. intros k it. rewrite initExpiration_lookup.
  destruct (items c !! k) as [it'|]; [|done].
  by destruct (Expiration it' >=? now_at k).
Qed.


(** X13: when no entry of the map has an expiration instant before the
    clock reading of its visit, a pass of [initExpiration] empties the map. *)
Theorem sweep_removes_all_unexpired now_at c :
  map_Forall (fun k it => now_at k <= Expiration it) (items c) ->
  items (cache_of (initExpiration now_at c)) = ∅.
Proof.
  intros H. apply map_eq. intros k. rewrite initExpiration_lookup, lookup_empty.
  destruct (items c !! k) as [it|] eqn:Hk; [|done].
  specialize (H k it Hk). simpl in H.
  assert ((Expiration it >=? now_at k) = true) as -> by (apply Z.geb_le; lia).
  done.
Qed.

(** X14: for a key that is absent and an expiration instant strictly before
    the clock reading of the read, [Get] after [Set] returns the entry that
    [Set] created, with the value, the expiration instant and the creation
    time given to [Set], and the entry stays in the map. *)
Theorem Set_then_Get_round_trip c key (value : V) expirationTime now now' :
  items c !! key = None -> expirationTime < now' ->
  value_of (Get now' key (cache_of (Set_ now key value expirationTime c)))
    = (Some (mkItem value expirationTime now), None)
  /\ items (cache_of (Get now' key (cache_of (Set_ now key value expirationTime c))))
       = <[key := mkItem value expirationTime now]> (items c).
Proof.
  intros H Hlt. rewrite (Set_fresh _ _ _ _ _ H).
  change (cache_of (_, ?b, _)) with b.
  by rewrite (Get_keep _ key (mkItem value expirationTime now));
    [|apply lookup_insert_eq|].
Qed.

(** X15: the first [Set] of a key wins: a second [Set] of that key, with
    any value, expiration instant and clock reading, fails with "key already
    exists", returns the entry of the first and leaves the map as the first
    left it. *)
Theorem first_Set_wins c key (v1 v2 : V) e1 e2 now1 now2 :
  items c !! key = None ->
  let c1 := cache_of (Set_ now1 key v1 e1 c) in
  value_of (Set_ now2 key v2 e2 c1)
    = (Some (mkItem v1 e1 now1), Some errKeyAlreadyExists)
  /\ items (cache_of (Set_ now2 key v2 e2 c1)) = items c1.
Proof.
  intros H. cbv zeta. rewrite (Set_fresh _ _ _ _ _ H).
  change (cache_of (_, ?b, _)) with b.
  by rewrite (Set_present _ key (mkItem v1 e1 now1)); [|apply lookup_insert_eq].
Qed.

(** X16: every key of the map after a sequence of operations was in the map
    before it or is the key of a [Set] of the sequence. *)
Theorem keys_come_from_Set ops c :
  dom (items (run ops c).2) ⊆ dom (items c) ∪ set_keys ops.
Proof.
  intros k Hk. apply elem_of_dom in Hk.
  destruct (decide (k ∈ dom (items c) ∪ set_keys ops)) as [|Hn]; [done|].
  exfalso. apply not_elem_of_union in Hn as [Hd Hs].
  apply not_elem_of_dom in Hd.
  assert (never_set k ops = true) as Hnever.
  { clear -Hs. induction ops as [|o ops IH]; [done|].
    destruct o as [now key|now key v e|key v e b|now_at]; simpl in *; auto.
    apply not_elem_of_union in Hs as [Hk Hs].
    rewrite IH by done. rewrite andb_true_r. apply negb_true_iff.
    apply bool_decide_eq_false. set_solver. }
  rewrite (run_absent ops c k Hd Hnever) in Hk. by destruct Hk.
Qed.


(** X18: no sequence of operations changes [defaultExpr],
    [checkExpiredInterval] or the counter of the wait group: the sweep
    interval stays the 10 minutes that [NewCache] sets. *)
Theorem configuration_is_immutable ops c :
  defaultExpr (run ops c).2 = defaultExpr c
  /\ checkExpiredInterval (run ops c).2 = checkExpiredInterval c
  /\ wg (run ops c).2 = wg c.
Proof.
  revert c. induction ops as [|o ops IH]; intros c; [done|].
  rewrite run_cons. simpl.
  destruct (IH (cache_of (apply_op o c))) as (-> & -> & ->).
  rewrite apply_op_cache.
  destruct o as [now key|now key v e|key v e b|now_at].
  - destruct (items c !! key) as [it'|] eqn:H.
    + destruct (Z_lt_le_dec (Expiration it') now) as [Hlt|Hle].
      * by rewrite (Get_keep _ _ _ _ H Hlt).
      * by rewrite (Get_evict _ _ _ _ H Hle).
    + by rewrite (Get_absent _ _ _ H).
  - destruct (items c !! key) as [it'|] eqn:H.
    + by rewrite (Set_present _ _ _ _ _ _ H).
    + by rewrite (Set_fresh _ _ _ _ _ H).
  - done.
  - destruct (initExpiration_frame now_at c) as (H1 & H2 & _ & H4). done.
Qed.

(** X19: after a pass of [initExpiration] the map holds an entry under a
    key exactly when it held that entry before and the expiration instant of
    the entry is strictly before the clock reading of its visit. *)
Theorem sweep_keeps_exactly_the_expired now_at c k it :
  items (cache_of (initExpiration now_at c)) !! k = Some it
  <-> items c !! k = Some it /\ Expiration it < now_at k.
Proof.
  rewrite initExpiration_lookup.
  destruct (items c !! k) as [it'|]; [|split; [done|by intros [? _]]].
  destruct (Expiration it' >=? now_at k) eqn:E.
  - apply Z.geb_le in E. split; [done|]. intros [[= ->] Hlt]. lia.
  - split.
    + intros [= ->]. split; [done|].
      destruct (Z_lt_le_dec (Expiration it) (now_at k)) as [?|Hle]; [done|].
      apply Z.geb_le in Hle. congruence.
    + by intros [-> _].
Qed.

(** X20: [Set] and [initExpiration] make every access to the map, reads and
    writes, while holding the write lock. *)
Theorem Set_and_sweep_hold_the_write_lock c key (value : V) expirationTime now now_at :
  Forall (fun e => e.2 = WLocked) (log_of (Set_ now key value expirationTime c))
  /\ Forall (fun e => e.2 = WLocked) (log_of (initExpiration now_at c)).
Proof.
  split.
  - destruct (items c !! key) as [it'|] eqn:H.
    + rewrite (Set_present _ _ _ _ _ _ H). by repeat constructor.
    + rewrite (Set_fresh _ _ _ _ _ H). by repeat constructor.
  - rewrite initExpiration_log, app_nil_r. constructor; [done|].
    eapply Forall_impl; [apply for_each_sweep_log|].
    by intros e ->.
Qed.

End Further.

(** ** The further properties at the example caches *)

Lemma Get_success_is_sound_witness :
  (value_of (Get 100 "a" with_past)).1 = Some (mkItem 42 90 80)
  /\ items with_past !! "a"%string = Some (mkItem 42 90 80)
  /\ Expiration (mkItem 42 90 80) < 100
  /\ (value_of (Get 100 "a" with_past)).2 = None
  /\ items (cache_of (Get 100 "a" with_past)) = items with_past.
Proof.
  split; [reflexivity|].
  apply (Get_success_is_sound with_past "a" (mkItem 42 90 80) 100).
  reflexivity.
Defined.

Lemma Get_failure_leaves_key_absent_witness :
  (value_of (Get 100 "a" with_future)).1 = None
  /\ (value_of (Get 100 "a" with_future)).2 = Some errKeyDoesNotExist
  /\ items (cache_of (Get 100 "a" with_future)) !! "a"%string = None.
Proof.
  split; [reflexivity|].
  apply (Get_failure_leaves_key_absent with_future "a" 100). reflexivity.
Defined.

Lemma Set_after_failed_Get_succeeds_witness :
  (value_of (Get 100 "a" with_future)).1 = None
  /\ value_of (Set_ 101 "a" 99 50 (cache_of (Get 100 "a" with_future)))
       = (Some (mkItem 99 50 101), None)
  /\ items (cache_of (Set_ 101 "a" 99 50 (cache_of (Get 100 "a" with_future))))
       !! "a"%string = Some (mkItem 99 50 101).
Proof.
  split; [reflexivity|].
  apply (Set_after_failed_Get_succeeds with_future "a" 99 50 100 101).
  reflexivity.
Defined.

Lemma Get_and_Set_touch_only_their_key_witness :
  "a"%string <> "b"%string
  /\ items (cache_of (Get 100 "b" two_past)) !! "a"%string
       = items two_past !! "a"%string
  /\ items (cache_of (Set_ 100 "b" 1 200 two_past)) !! "a"%string
       = items two_past !! "a"%string.
Proof.
  split; [discriminate|].
  apply (Get_and_Set_touch_only_their_key two_past "b" "a" 1 200 100).
  discriminate.
Defined.

Lemma no_operation_overwrites_witness :
  items with_future !! "a"%string = Some (mkItem 42 110 100)
  /\ (items (cache_of (apply_op (OpSet 100 "a" 99 200) with_future)) !! "a"%string
        = Some (mkItem 42 110 100)
      \/ items (cache_of (apply_op (OpSet 100 "a" 99 200) with_future)) !! "a"%string
        = None).
Proof.
  split; [reflexivity|].
  apply (no_operation_overwrites (OpSet 100 "a" 99 200) with_future "a"
           (mkItem 42 110 100)).
  reflexivity.
Defined.

Lemma sweep_removes_all_unexpired_witness :
  map_Forall (fun (k : string) (it : Item Z) => 100 <= Expiration it)
    (items with_future)
  /\ items (cache_of (initExpiration (fun _ => 100) with_future)) = ∅.
Proof.
  assert (map_Forall (fun (k : string) (it : Item Z) => 100 <= Expiration it)
            (items with_future)) as H.
  { apply map_Forall_singleton. simpl; lia. }
  split; [exact H|].
  apply (sweep_removes_all_unexpired (fun _ => 100) with_future H).
Defined.

Lemma Set_then_Get_round_trip_witness :
  items fresh !! "a"%string = None /\ 90 < 100
  /\ value_of (Get 100 "a" (cache_of (Set_ 80 "a" 42 90 fresh)))
       = (Some (mkItem 42 90 80), None)
  /\ items (cache_of (Get 100 "a" (cache_of (Set_ 80 "a" 42 90 fresh))))
       = <[ "a"%string := mkItem 42 90 80 ]> (items fresh).
Proof.
  split; [reflexivity|]. split; [lia|].
  apply (Set_then_Get_round_trip fresh "a" 42 90 80 100); [reflexivity | lia].
Defined.

Lemma first_Set_wins_witness :
  items fresh !! "a"%string = None
  /\ value_of (Set_ 100 "a" 99 110 (cache_of (Set_ 100 "a" 42 110 fresh)))
       = (Some (mkItem 42 110 100), Some errKeyAlreadyExists)
  /\ items (cache_of (Set_ 100 "a" 99 110 (cache_of (Set_ 100 "a" 42 110 fresh))))
       = items (cache_of (Set_ 100 "a" 42 110 fresh)).
Proof.
  split; [reflexivity|].
  apply (first_Set_wins fresh "a" 42 99 110 110 100 100). reflexivity.
Defined.

